(** * The method model of the HIDL compiler (Method.cpp)

    A shallow embedding of [android::Method] and [android::TypedVarVector]:
    the semantic passes, the callback-elision policy, the native argument
    signature, the reserved-method dispatch and the unique-name collection,
    followed by the properties the specification states about them. *)

From Stdlib Require Import ZArith.
From stdpp Require Import base decidable option list countable gmap strings.

(** ** Collaborators declared outside Method.cpp *)

(** [status_t] is a signed 32-bit error code; [OK] is zero.  The code only
    compares a status with [OK] and hands it on. *)
Definition status_t : Type := Z.
Definition OK : status_t := 0%Z.

(** Modelled from the spec: the enumeration [MethodImplType] of Method.h, the
    implementation roles "default interface body, stub,
    stub-default-implementation, and proxy-side body". *)
Inductive MethodImplType : Type :=
  | IMPL_INTERFACE
  | IMPL_PROXY
  | IMPL_STUB
  | IMPL_STUB_IMPL.

#[global] Instance MethodImplType_eq_dec : EqDecision MethodImplType.
Proof. solve_decision. Defined.

Definition MethodImplType_to_nat (r : MethodImplType) : nat :=
  match r with
  | IMPL_INTERFACE => 0
  | IMPL_PROXY => 1
  | IMPL_STUB => 2
  | IMPL_STUB_IMPL => 3
  end.

Definition MethodImplType_of_nat (n : nat) : option MethodImplType :=
  match n with
  | 0 => Some IMPL_INTERFACE
  | 1 => Some IMPL_PROXY
  | 2 => Some IMPL_STUB
  | 3 => Some IMPL_STUB_IMPL
  | _ => None
  end.

#[global] Instance MethodImplType_countable : Countable MethodImplType.
Proof.
  apply (inj_countable MethodImplType_to_nat MethodImplType_of_nat).
  intros []; reflexivity.
Defined.

(** Modelled from the spec: the text emission stream [Formatter] of
    hidl-util, seen as the text written to it so far; [out << s] appends. *)
Definition Formatter : Type := string.

Definition put (out : Formatter) (s : string) : Formatter := out +:+ s.

Notation "out << s" := (put out s) (at level 50, left associativity).

(** Modelled from the spec: [Formatter::join], which calls [func] on every
    element in order and writes the separator between two elements. *)
Definition join {A : Type} (out : Formatter) (l : list A) (separator : string)
    (func : A → Formatter → Formatter) : Formatter :=
  match l with
  | [] => out
  | x :: rest =>
      fold_left (fun o y => func y (o << separator)) rest (func x out)
  end.

(** [std::function<void(Formatter&)>]; [None] is the null function. *)
Abbreviation emitter := (option (Formatter → Formatter)).

(** [MethodImpl = std::map<MethodImplType, std::function<void(Formatter&)>>] *)
Abbreviation MethodImpl := (gmap MethodImplType emitter).

(** [impl.find(type) != impl.end()] *)
Definition found (impl : MethodImpl) (type : MethodImplType) : bool :=
  match impl !! type with
  | Some _ => true
  | None => false
  end.

(** ** Fatal assertions

    A failed [CHECK] ends the compiler process; a checked computation either
    returns or aborts with the message of the failed assertion. *)
Inductive checked (A : Type) : Type :=
  | Ret (a : A)
  | Abort (msg : string).
Arguments Ret {A} a.
Arguments Abort {A} msg.

Definition bind {A B : Type} (c : checked A) (k : A → checked B) : checked B :=
  match c with
  | Ret a => k a
  | Abort msg => Abort msg
  end.

Definition CHECK (cond : bool) (msg : string) : checked unit :=
  if cond then Ret tt else Abort msg.

Notation "c ;;; k" := (bind c (fun _ => k))
  (at level 100, right associativity).

Section MethodModel.

(** The state the collaborators' [evaluate] and [validate] routines work on
    (the shared type graph, diagnostics): a routine takes the state it finds
    and returns its status with the state it leaves. *)
Context {World : Type}.

Definition routine : Type := World → status_t * World.

(** [android::Type], as far as Method.cpp asks it. *)
Record Type_ : Type := {
  isElidableType : bool;
  Type_isJavaCompatible : bool;
  getCppArgumentType : bool → string;
  getCppResultType : bool → string;
  getJavaType : string;
  (** [callForReference(&Type::evaluate)], [callForReference(&Type::validate)] *)
  Type_evaluate : routine;
  Type_validate : routine;
}.

(** [NamedReference<Type>]: [name()] and [type()]. *)
Record NamedReference : Type := {
  ref_name : string;
  ref_type : Type_;
}.

Record Annotation : Type := {
  Annotation_evaluate : routine;
  Annotation_validate : routine;
  Annotation_dump : Formatter → Formatter;
}.

(** ** Method *)

(** The members of [Method]; [mLocation] is provenance only and is left out.
    [mSerial] is a [size_t], which is only stored and read back. *)
Record Method : Type := {
  mName : string;
  mArgs : list NamedReference;
  mResults : list NamedReference;
  mOneway : bool;
  mAnnotations : list Annotation;
  mIsHidlReserved : bool;
  mSerial : N;
  mCppImpl : MethodImpl;
  mJavaImpl : MethodImpl;
}.

(** Modelled from the spec: the constructor leaves the members it does not
    name at their defaults of Method.h, "constructed once ... with
    isReserved=false". *)
Definition newMethod (name : string) (args results : list NamedReference)
    (oneway : bool) (annotations : list Annotation) : Method :=
  {| mName := name; mArgs := args; mResults := results; mOneway := oneway;
     mAnnotations := annotations; mIsHidlReserved := false; mSerial := 0%N;
     mCppImpl := ∅; mJavaImpl := ∅ |}.

Definition fillImplementation (serial : N) (cppImpl javaImpl : MethodImpl)
    (m : Method) : checked Method :=
  let m' := {| mName := mName m; mArgs := mArgs m; mResults := mResults m;
               mOneway := mOneway m; mAnnotations := mAnnotations m;
               mIsHidlReserved := true; mSerial := serial;
               mCppImpl := cppImpl; mJavaImpl := javaImpl |} in
  CHECK (negb (found (mJavaImpl m') IMPL_STUB_IMPL))
    "FATAL: mJavaImpl should not use IMPL_STUB_IMPL; use IMPL_INTERFACE instead." ;;;
  CHECK (negb (found (mCppImpl m') IMPL_STUB_IMPL)
         || negb (found (mCppImpl m') IMPL_STUB))
    "FATAL: mCppImpl IMPL_STUB will override IMPL_STUB_IMPL." ;;;
  Ret m'.

Definition name (m : Method) : string := mName m.
Definition args (m : Method) : list NamedReference := mArgs m.
Definition results (m : Method) : list NamedReference := mResults m.
Definition annotations (m : Method) : list Annotation := mAnnotations m.
Definition isHidlReserved (m : Method) : bool := mIsHidlReserved m.

(** One [for] loop of a pass: call the routine of every element in order and
    leave at the first status that is not [OK]. *)
Fixpoint for_each {A : Type} (call : A → routine) (l : list A) (w : World)
    : status_t * World :=
  match l with
  | [] => (OK, w)
  | x :: rest =>
      let '(err, w') := call x w in
      if negb (err =? OK)%Z then (err, w') else for_each call rest w'
  end.

Definition evaluate (m : Method) (w : World) : status_t * World :=
  let '(err, w) := for_each (fun arg => Type_evaluate (ref_type arg)) (mArgs m) w in
  if negb (err =? OK)%Z then (err, w) else
  let '(err, w) := for_each (fun result => Type_evaluate (ref_type result)) (mResults m) w in
  if negb (err =? OK)%Z then (err, w) else
  let '(err, w) := for_each Annotation_evaluate (mAnnotations m) w in
  if negb (err =? OK)%Z then (err, w) else
  (OK, w).

Definition validate (m : Method) (w : World) : status_t * World :=
  let '(err, w) := for_each (fun arg => Type_validate (ref_type arg)) (mArgs m) w in
  if negb (err =? OK)%Z then (err, w) else
  let '(err, w) := for_each (fun result => Type_validate (ref_type result)) (mResults m) w in
  if negb (err =? OK)%Z then (err, w) else
  let '(err, w) := for_each Annotation_validate (mAnnotations m) w in
  if negb (err =? OK)%Z then (err, w) else
  (OK, w).

Definition cppImpl (type : MethodImplType) (out : Formatter) (m : Method)
    : checked Formatter :=
  CHECK (mIsHidlReserved m) "Check failed: mIsHidlReserved" ;;;
  match mCppImpl m !! type with
  | Some (Some f) => Ret (f out)
  | Some None => Ret out
  | None => Ret out
  end.

Definition javaImpl (type : MethodImplType) (out : Formatter) (m : Method)
    : checked Formatter :=
  CHECK (mIsHidlReserved m) "Check failed: mIsHidlReserved" ;;;
  match mJavaImpl m !! type with
  | Some (Some f) => Ret (f out)
  | Some None => Ret out
  | None => Ret out
  end.

Definition isHiddenFromJava (m : Method) : bool :=
  isHidlReserved m && String.eqb (name m) "debug".

Definition overridesCppImpl (type : MethodImplType) (m : Method) : checked bool :=
  CHECK (mIsHidlReserved m) "Check failed: mIsHidlReserved" ;;;
  Ret (found (mCppImpl m) type).

Definition overridesJavaImpl (type : MethodImplType) (m : Method) : checked bool :=
  CHECK (mIsHidlReserved m) "Check failed: mIsHidlReserved" ;;;
  Ret (found (mJavaImpl m) type).

Definition copySignature (m : Method) : Method :=
  newMethod (mName m) (mArgs m) (mResults m) (mOneway m) (mAnnotations m).

Definition setSerialId (serial : N) (m : Method) : checked Method :=
  CHECK (negb (mIsHidlReserved m)) "Check failed: !mIsHidlReserved" ;;;
  Ret {| mName := mName m; mArgs := mArgs m; mResults := mResults m;
         mOneway := mOneway m; mAnnotations := mAnnotations m;
         mIsHidlReserved := mIsHidlReserved m; mSerial := serial;
         mCppImpl := mCppImpl m; mJavaImpl := mJavaImpl m |}.

Definition getSerialId (m : Method) : N := mSerial m.

(** [nullptr] is [None]. *)
Definition canElideCallback (m : Method) : option NamedReference :=
  match mResults m with
  | [typedVar] =>
      if isElidableType (ref_type typedVar) then Some typedVar else None
  | _ => None
  end.

(** [v.empty()] *)
Definition empty_ {A : Type} (v : list A) : bool :=
  match v with
  | [] => true
  | _ :: _ => false
  end.

Definition hasEmptyCppArgSignature (m : Method) : bool :=
  empty_ (args m)
  && (empty_ (results m) || bool_decide (is_Some (canElideCallback m))).

Definition generateCppReturnType (out : Formatter) (specifyNamespaces : bool)
    (m : Method) : Formatter :=
  let elidedReturn := canElideCallback m in
  let space := if specifyNamespaces then "::android::hardware::" else "" in
  match elidedReturn with
  | None => out << space << "Return<void> "
  | Some r =>
      out << space << "Return<"
          << getCppResultType (ref_type r) specifyNamespaces << "> "
  end.

Definition emitCppArgResultSignature (out : Formatter)
    (args : list NamedReference) (specifyNamespaces : bool) : Formatter :=
  join out args ", " (fun arg out =>
    out << getCppArgumentType (ref_type arg) specifyNamespaces
        << " " << ref_name arg).

Definition emitJavaArgResultSignature (out : Formatter)
    (args : list NamedReference) : Formatter :=
  join out args ", " (fun arg out =>
    out << getJavaType (ref_type arg) << " " << ref_name arg).

Definition emitCppArgSignature (out : Formatter) (specifyNamespaces : bool)
    (m : Method) : Formatter :=
  let out := emitCppArgResultSignature out (args m) specifyNamespaces in
  let returnsValue := negb (empty_ (results m)) in
  let elidedReturn := canElideCallback m in
  if returnsValue && negb (bool_decide (is_Some elidedReturn)) then
    let out := if negb (empty_ (args m)) then out << ", " else out in
    out << name m << "_cb _hidl_cb"
  else out.

Definition emitCppResultSignature (out : Formatter) (specifyNamespaces : bool)
    (m : Method) : Formatter :=
  emitCppArgResultSignature out (results m) specifyNamespaces.

Definition emitJavaArgSignature (out : Formatter) (m : Method) : Formatter :=
  emitJavaArgResultSignature out (args m).

Definition emitJavaResultSignature (out : Formatter) (m : Method) : Formatter :=
  emitJavaArgResultSignature out (results m).

Definition generateCppSignature (out : Formatter) (className : string)
    (specifyNamespaces : bool) (m : Method) : Formatter :=
  let out := generateCppReturnType out specifyNamespaces m in
  let out := if negb (String.eqb className "") then out << className << "::"
             else out in
  let out := out << name m << "(" in
  let out := emitCppArgSignature out specifyNamespaces m in
  out << ")".

(** [std::all_of] *)
Definition all_of {A : Type} (l : list A) (p : A → bool) : bool := forallb p l.

Definition isJavaCompatible (m : Method) : bool :=
  if isHiddenFromJava m then true
  else if negb (all_of (mArgs m)
                  (fun arg => Type_isJavaCompatible (ref_type arg))) then false
  else if negb (all_of (mResults m)
                  (fun arg => Type_isJavaCompatible (ref_type arg))) then false
  else true.

(** The line feed written by [out << "\n"]. *)
Definition newline : string := String (Ascii.ascii_of_nat 10) EmptyString.

(** The loop of [dumpAnnotations] at index [i], [rest] being the annotations
    at [i] and after it. *)
Fixpoint dump_loop (i : nat) (rest : list Annotation) (out : Formatter)
    : Formatter :=
  match rest with
  | [] => out
  | annotation :: rest' =>
      let out := if (0 <? i)%nat then out << " " else out in
      dump_loop (S i) rest' (Annotation_dump annotation out)
  end.

Definition dumpAnnotations (out : Formatter) (m : Method) : Formatter :=
  if (length (mAnnotations m) =? 0)%nat then out
  else
    let out := out << "// " in
    let out := dump_loop 0 (mAnnotations m) out in
    out << newline.

(** ** TypedVarVector

    A [std::vector<NamedReference<Type>*>] with the private member
    [std::set<std::string> mNames]. *)
Record TypedVarVector : Type := {
  elems : list NamedReference;
  mNames : gset string;
}.

(** Modelled from the spec: the default constructor of Method.h, an empty
    collection. *)
Definition newTypedVarVector : TypedVarVector :=
  {| elems := []; mNames := ∅ |}.

(** [mNames.emplace(s)]: the set after the call, and whether [s] was
    inserted. *)
Definition emplace (s : string) (names : gset string) : gset string * bool :=
  if decide (s ∈ names) then (names, false) else ({[s]} ∪ names, true).

Definition push_back (v : NamedReference) (c : TypedVarVector) : TypedVarVector :=
  {| elems := elems c ++ [v]; mNames := mNames c |}.

Definition add (v : NamedReference) (c : TypedVarVector) : bool * TypedVarVector :=
  let '(names, inserted) := emplace (ref_name v) (mNames c) in
  let c := {| elems := elems c; mNames := names |} in
  if inserted then (true, push_back v c) else (false, c).

(** The names recorded are those of the references held: true of the empty
    collection and kept by [add]. *)
Definition names_in_step (c : TypedVarVector) : Prop :=
  mNames c = list_to_set (ref_name <$> elems c).

(** ** Vocabulary of the properties *)

(** One parameter of the native signature as the specification writes it,
    [<renderedType> <name>]. *)
Definition cpp_param (specifyNamespaces : bool) (arg : NamedReference) : string :=
  getCppArgumentType (ref_type arg) specifyNamespaces +:+ " " +:+ ref_name arg.

(** The explicit parameters of the native signature, joined by [", "]. *)
Definition cpp_params (specifyNamespaces : bool) (l : list NamedReference) : string :=
  String.concat ", " (cpp_param specifyNamespaces <$> l).

(** The routines a pass may call, in the order arguments, results,
    annotations. *)
Definition evaluate_calls (m : Method) : list routine :=
  ((fun arg => Type_evaluate (ref_type arg)) <$> mArgs m)
  ++ ((fun result => Type_evaluate (ref_type result)) <$> mResults m)
  ++ (Annotation_evaluate <$> mAnnotations m).

Definition validate_calls (m : Method) : list routine :=
  ((fun arg => Type_validate (ref_type arg)) <$> mArgs m)
  ++ ((fun result => Type_validate (ref_type result)) <$> mResults m)
  ++ (Annotation_validate <$> mAnnotations m).

(** Every routine of [calls], run in order from [w], returns [OK]; the last
    leaves [w']. *)
Fixpoint all_succeed (calls : list routine) (w w' : World) : Prop :=
  match calls with
  | [] => w' = w
  | f :: rest => ∃ w1, f w = (OK, w1) ∧ all_succeed rest w1 w'
  end.

(** The calls made one after the other until one fails: what a pass does,
    told in one loop. *)
Fixpoint first_error (calls : list routine) (w : World) : status_t * World :=
  match calls with
  | [] => (OK, w)
  | f :: rest =>
      let '(err, w') := f w in
      if negb (err =? OK)%Z then (err, w') else first_error rest w'
  end.

(** The typed reference [v] bears a name held by [c]. *)
Definition name_present (v : NamedReference) (c : TypedVarVector) : Prop :=
  ∃ r, r ∈ elems c ∧ ref_name r = ref_name v.

(** One parameter of a managed signature, [<renderedType> <name>], and a
    list of them joined by [", "]. *)
Definition java_param (arg : NamedReference) : string :=
  getJavaType (ref_type arg) +:+ " " +:+ ref_name arg.

Definition java_params (l : list NamedReference) : string :=
  String.concat ", " (java_param <$> l).

(** The text of the callback parameter in the native signature: present
    when the method has a result and the callback is not elided. *)
Definition callback_param (m : Method) : string :=
  match canElideCallback m, results m with
  | None, _ :: _ =>
      (if args m is [] then "" else ", ") +:+ name m +:+ "_cb _hidl_cb"
  | _, _ => ""
  end.

(** The native return type: the elided result, or [void]. *)
Definition return_type (specifyNamespaces : bool) (m : Method) : string :=
  match canElideCallback m with
  | Some r => "Return<" +:+ getCppResultType (ref_type r) specifyNamespaces +:+ "> "
  | None => "Return<void> "
  end.

(** The collection after the references of [vs] were offered to [add] one
    after the other. *)
Definition add_all (vs : list NamedReference) (c : TypedVarVector)
    : TypedVarVector :=
  foldl (fun c v => (add v c).2) c vs.

End MethodModel.

(** ** Methods to try the model on

    The collaborators' state is here the log of the routines called. *)

Definition Log : Type := list string.

Definition logged (tag : string) (status : status_t) : @routine Log :=
  fun log => (status, log ++ [tag]).

(** A scalar type, and the same type with a failing evaluation and
    validation ([-22] is [BAD_VALUE]). *)
Definition int32_t (tag : string) (status : status_t) : @Type_ Log :=
  {| isElidableType := true;
     Type_isJavaCompatible := true;
     getCppArgumentType := fun _ => "int32_t";
     getCppResultType := fun _ => "int32_t";
     getJavaType := "int";
     Type_evaluate := logged tag status;
     Type_validate := logged tag status |}.

(** A type that is neither elidable nor known to the managed backend. *)
Definition handle (tag : string) : @Type_ Log :=
  {| isElidableType := false;
     Type_isJavaCompatible := false;
     getCppArgumentType := fun specifyNamespaces =>
       if specifyNamespaces then "const ::android::hardware::hidl_handle&"
       else "const hidl_handle&";
     getCppResultType := fun specifyNamespaces =>
       if specifyNamespaces then "::android::hardware::hidl_handle"
       else "hidl_handle";
     getJavaType := "";
     Type_evaluate := logged tag OK;
     Type_validate := logged tag OK |}.

Definition int32 (name : string) : @NamedReference Log :=
  {| ref_name := name; ref_type := int32_t name OK |}.

Definition bad_int32 (name : string) : @NamedReference Log :=
  {| ref_name := name; ref_type := int32_t name (-22)%Z |}.

Definition fd : @NamedReference Log :=
  {| ref_name := "fd"; ref_type := handle "fd" |}.

Definition callflow : @Annotation Log :=
  {| Annotation_evaluate := logged "@callflow" OK;
     Annotation_validate := logged "@callflow" OK;
     Annotation_dump := fun out => out << "@callflow" |}.

(** [foo() generates (int32_t x)] *)
Definition foo : @Method Log := newMethod "foo" [] [int32 "x"] false [].

(** [bar(int32_t a, int32_t b) generates (int32_t x, int32_t y)] *)
Definition bar : @Method Log :=
  newMethod "bar" [int32 "a"; int32 "b"] [int32 "x"; int32 "y"] false [].

(** Five arguments of which the third fails its routine. *)
Definition five : @Method Log :=
  newMethod "five"
    [int32 "a"; int32 "b"; bad_int32 "c"; int32 "d"; int32 "e"]
    [int32 "x"] false [callflow].

(** The reserved method [debug]: a body for the interface role, the stub
    role registered with the null routine, nothing for the managed backend. *)
Definition debug_native : MethodImpl :=
  {[ IMPL_INTERFACE := Some (fun out => out << "return ::android::hardware::Void();");
     IMPL_STUB := None ]}.

Definition debug_signature : @Method Log :=
  newMethod "debug" [fd; int32 "options"] [] false [].

Definition debug : @Method Log :=
  {| mName := "debug"; mArgs := [fd; int32 "options"]; mResults := [];
     mOneway := false; mAnnotations := []; mIsHidlReserved := true;
     mSerial := 256%N; mCppImpl := debug_native; mJavaImpl := ∅ |}.

Definition entry : @Annotation Log :=
  {| Annotation_evaluate := logged "@entry" OK;
     Annotation_validate := logged "@entry" OK;
     Annotation_dump := fun out => out << "@entry" |}.

(** [@entry @callflow open()] *)
Definition open_device : @Method Log :=
  newMethod "open" [] [] false [entry; callflow].

Definition vars_a_b : @TypedVarVector Log :=
  (add (int32 "b") (add (int32 "a") newTypedVarVector).2).2.

(** ** Text lemmas *)

Lemma append_assoc (a b c : string) : (a +:+ b) +:+ c = a +:+ (b +:+ c).
Proof.
  induction a as [|ch a IH]; [reflexivity|].
  change (String ch ((a +:+ b) +:+ c) = String ch (a +:+ (b +:+ c))).
  by rewrite IH.
Qed.

Lemma append_empty_r (a : string) : a +:+ "" = a.
Proof.
  induction a as [|ch a IH]; [reflexivity|].
  change (String ch (a +:+ "") = String ch a).
  by rewrite IH.
Qed.

Lemma concat_cons_cons (sep x y : string) (l : list string) :
  String.concat sep (x :: y :: l) = x +:+ sep +:+ String.concat sep (y :: l).
Proof. reflexivity. Qed.

(** What [join] writes: the pieces with the separator between them. *)
Lemma join_fold_text {A : Type} (piece : A → string)
    (func : A → Formatter → Formatter) (sep : string) :
  (∀ x o, func x o = o +:+ piece x) →
  ∀ (rest : list A) (x : A) (out : Formatter),
    fold_left (fun o y => func y (o << sep)) rest (out +:+ piece x)
    = out +:+ String.concat sep (piece x :: (piece <$> rest)).
Proof.
  intros Hfunc. induction rest as [|y rest IH]; intros x out; [reflexivity|].
  cbn [fold_left]. rewrite Hfunc. unfold put. rewrite IH.
  rewrite fmap_cons, (concat_cons_cons sep (piece x)).
  by rewrite !append_assoc.
Qed.

Lemma join_text {A : Type} (piece : A → string) (func : A → Formatter → Formatter)
    (sep : string) (l : list A) (out : Formatter) :
  (∀ x o, func x o = o +:+ piece x) →
  join out l sep func = out +:+ String.concat sep (piece <$> l).
Proof.
  intros Hfunc. destruct l as [|x rest]; [by rewrite append_empty_r|].
  unfold join. rewrite Hfunc. by apply join_fold_text.
Qed.

(** ** The semantic passes *)

Section Passes.
Context {World : Type}.
Implicit Types (w : World) (calls : list (@routine World)).

Lemma for_each_first_error {A : Type} (call : A → routine) (l : list A) w :
  for_each call l w = first_error (call <$> l) w.
Proof.
  revert w. induction l as [|x l IH]; intros w; [reflexivity|].
  cbn [for_each first_error fmap list_fmap]. destruct (call x w) as [err w1].
  destruct (negb (err =? OK)%Z); [reflexivity | apply IH].
Qed.

Lemma first_error_app calls1 calls2 w :
  first_error (calls1 ++ calls2) w =
    let '(err, w1) := first_error calls1 w in
    if negb (err =? OK)%Z then (err, w1) else first_error calls2 w1.
Proof.
  revert w. induction calls1 as [|f calls1 IH]; intros w; [reflexivity|].
  cbn [app first_error]. destruct (f w) as [err w1].
  destruct (negb (err =? OK)%Z) eqn:E; [by rewrite E | apply IH].
Qed.

Lemma first_error_status calls w :
  let '(err, w1) := first_error calls w in
  negb (err =? OK)%Z = false → err = OK.
Proof.
  destruct (first_error calls w) as [err w1].
  intros H%negb_false_iff. by apply Z.eqb_eq.
Qed.

Lemma evaluate_first_error (m : Method) w :
  evaluate m w = first_error (evaluate_calls m) w.
Proof.
  unfold evaluate, evaluate_calls.
  rewrite first_error_app, for_each_first_error.
  destruct (first_error _ w) as [e1 w1].
  destruct (negb (e1 =? OK)%Z); [reflexivity|].
  rewrite first_error_app, for_each_first_error.
  destruct (first_error _ w1) as [e2 w2].
  destruct (negb (e2 =? OK)%Z); [reflexivity|].
  rewrite for_each_first_error.
  pose proof (first_error_status (Annotation_evaluate <$> mAnnotations m) w2) as H.
  destruct (first_error _ w2) as [e3 w3].
  destruct (negb (e3 =? OK)%Z); [reflexivity|]. by rewrite H.
Qed.

Lemma validate_first_error (m : Method) w :
  validate m w = first_error (validate_calls m) w.
Proof.
  unfold validate, validate_calls.
  rewrite first_error_app, for_each_first_error.
  destruct (first_error _ w) as [e1 w1].
  destruct (negb (e1 =? OK)%Z); [reflexivity|].
  rewrite first_error_app, for_each_first_error.
  destruct (first_error _ w1) as [e2 w2].
  destruct (negb (e2 =? OK)%Z); [reflexivity|].
  rewrite for_each_first_error.
  pose proof (first_error_status (Annotation_validate <$> mAnnotations m) w2) as H.
  destruct (first_error _ w2) as [e3 w3].
  destruct (negb (e3 =? OK)%Z); [reflexivity|]. by rewrite H.
Qed.

Lemma first_error_stops calls w :
  ∀ pre f post w1 err w2,
    calls = pre ++ f :: post →
    all_succeed pre w w1 →
    f w1 = (err, w2) →
    err ≠ OK →
    first_error calls w = (err, w2).
Proof.
  intros pre f post w1 err w2 -> Hpre Hf Herr. revert w Hpre.
  induction pre as [|g pre IH]; intros w Hpre.
  - cbn in Hpre. subst w1. cbn [app first_error]. rewrite Hf.
    by apply Z.eqb_neq in Herr as ->.
  - destruct Hpre as (w0 & Hg & Hpre). cbn [app first_error]. rewrite Hg.
    cbn. by apply IH.
Qed.

Lemma first_error_OK calls w w' :
  first_error calls w = (OK, w') ↔ all_succeed calls w w'.
Proof.
  revert w. induction calls as [|f calls IH]; intros w; cbn [first_error all_succeed].
  - split; [by intros [= ->] | by intros ->].
  - destruct (f w) as [err w1]. destruct (err =? OK)%Z eqn:E; cbn [negb].
    + apply Z.eqb_eq in E as ->. rewrite IH. split.
      * intros H. by exists w1.
      * by intros (w0 & [= ->] & H).
    + apply Z.eqb_neq in E. split.
      * by intros [= -> ->].
      * by intros (w0 & [= -> ->] & H).
Qed.

End Passes.

(** ** Properties of one method *)

Section MethodProperties.
Context {World : Type}.
Implicit Types (m : @Method World) (r v : @NamedReference World).
Implicit Types (w : World) (out : Formatter) (role : MethodImplType).

Lemma empty_true {A : Type} (l : list A) : empty_ l = true ↔ l = [].
Proof. destruct l; cbn; split; congruence. Qed.

Lemma empty_false {A : Type} (l : list A) : empty_ l = false ↔ l ≠ [].
Proof. destruct l; cbn; split; congruence. Qed.

Lemma found_is_Some (impl : MethodImpl) role :
  found impl role = true ↔ is_Some (impl !! role).
Proof.
  unfold found. destruct (impl !! role); split; try done.
Qed.

Lemma found_None (impl : MethodImpl) role :
  found impl role = false ↔ impl !! role = None.
Proof. unfold found. by destruct (impl !! role). Qed.

Lemma all_of_Forall {A : Type} (p : A → bool) (l : list A) :
  all_of l p = true ↔ Forall (fun x => p x = true) l.
Proof.
  unfold all_of. induction l as [|x l IH]; cbn [forallb].
  - split; [constructor | done].
  - rewrite andb_true_iff, Forall_cons, IH. reflexivity.
Qed.

Lemma canElideCallback_Some m r :
  canElideCallback m = Some r
  ↔ mResults m = [r] ∧ isElidableType (ref_type r) = true.
Proof.
  unfold canElideCallback. destruct (mResults m) as [|r0 [|r1 rest]].
  - split; [done | by intros [? _]].
  - destruct (isElidableType (ref_type r0)) eqn:E; split.
    + by intros [= <-].
    + by intros [[= <-] _].
    + done.
    + intros [[= <-] ?]. congruence.
  - split; [done | by intros [? _]].
Qed.

(** C1. [canElideCallback] returns a result [r] exactly when [r] is the
    method's only result and the type of [r] is elidable; it returns none
    exactly when there is no such result, in particular for a method with no
    result, with two results or more, or with one result of a type that is
    not elidable. *)
Theorem canElideCallback_iff m :
  (∀ r, canElideCallback m = Some r
        ↔ mResults m = [r] ∧ isElidableType (ref_type r) = true)
  ∧ (canElideCallback m = None
     ↔ ¬ ∃ r, mResults m = [r] ∧ isElidableType (ref_type r) = true)
  ∧ (mResults m = [] → canElideCallback m = None)
  ∧ (2 ≤ length (mResults m) → canElideCallback m = None)
  ∧ (∀ r, mResults m = [r] → isElidableType (ref_type r) = false →
          canElideCallback m = None).
Proof.
  pose proof (canElideCallback_Some m) as HSome.
  assert (HNone : canElideCallback m = None
                  ↔ ¬ ∃ r, mResults m = [r] ∧ isElidableType (ref_type r) = true).
  { split.
    - intros Hn (r & Hr). apply HSome in Hr. congruence.
    - intros Hno. destruct (canElideCallback m) as [r|] eqn:E; [|reflexivity].
      exfalso. apply Hno. exists r. by apply HSome. }
  split; [exact HSome|]. split; [exact HNone|]. repeat split.
  - intros Hres. apply HNone. intros (r & Hr & _). congruence.
  - intros Hlen. apply HNone. intros (r & Hr & _). rewrite Hr in Hlen.
    cbn in Hlen. lia.
  - intros r Hres Hty. apply HNone. intros (r' & Hr' & Hty').
    rewrite Hres in Hr'. injection Hr' as <-. congruence.
Qed.

(** C7. [hasEmptyCppArgSignature] is true exactly when the method has no
    argument and either no result or an elided callback. *)
Theorem hasEmptyCppArgSignature_iff m :
  hasEmptyCppArgSignature m = true
  ↔ args m = [] ∧ (results m = [] ∨ is_Some (canElideCallback m)).
Proof.
  unfold hasEmptyCppArgSignature.
  rewrite andb_true_iff, orb_true_iff, !empty_true, bool_decide_eq_true.
  reflexivity.
Qed.

(** C2. When the method has a result and the callback is not elided, the
    native argument signature is the explicit parameters followed by the
    callback parameter [<name>_cb _hidl_cb], with [", "] before it exactly
    when there is an explicit parameter; when the method has no result or
    the callback is elided, it is the explicit parameters alone. *)
Theorem emitCppArgSignature_callback out (specifyNamespaces : bool) m :
  (results m ≠ [] → canElideCallback m = None →
     emitCppArgSignature out specifyNamespaces m
     = out +:+ cpp_params specifyNamespaces (args m)
           +:+ (if args m is [] then "" else ", ")
           +:+ name m +:+ "_cb _hidl_cb")
  ∧ (results m = [] ∨ is_Some (canElideCallback m) →
     emitCppArgSignature out specifyNamespaces m
     = out +:+ cpp_params specifyNamespaces (args m)).
Proof.
  assert (Hexplicit : emitCppArgResultSignature out (args m) specifyNamespaces
                      = out +:+ cpp_params specifyNamespaces (args m)).
  { unfold emitCppArgResultSignature, cpp_params. apply join_text.
    intros x o. unfold cpp_param, put. by rewrite !append_assoc. }
  unfold emitCppArgSignature. rewrite Hexplicit. split.
  - intros Hres Hcb. apply empty_false in Hres. rewrite Hres, Hcb.
    cbn [negb andb]. rewrite bool_decide_eq_false_2 by (by intros [? ?]).
    cbn [negb]. destruct (args m); cbn [empty_ negb]; unfold put;
      by rewrite !append_assoc.
  - intros [Hres | Hcb].
    + apply empty_true in Hres. by rewrite Hres.
    + rewrite (bool_decide_eq_true_2 _ Hcb). cbn [negb]. by rewrite andb_false_r.
Qed.

(** C9. A reserved method named [debug] is compatible with the managed
    backend whatever its types are; any other method is compatible exactly
    when the type of every argument and of every result is. *)
Theorem isJavaCompatible_iff m :
  (isHidlReserved m = true → name m = "debug" → isJavaCompatible m = true)
  ∧ (¬ (isHidlReserved m = true ∧ name m = "debug") →
     (isJavaCompatible m = true
      ↔ Forall (fun arg => Type_isJavaCompatible (ref_type arg) = true) (mArgs m)
        ∧ Forall (fun result => Type_isJavaCompatible (ref_type result) = true)
            (mResults m))).
Proof.
  unfold isJavaCompatible, isHiddenFromJava. split.
  - intros -> ->. reflexivity.
  - intros Hother.
    assert (isHidlReserved m && String.eqb (name m) "debug" = false) as ->.
    { apply not_true_is_false. rewrite andb_true_iff, String.eqb_eq. exact Hother. }
    rewrite <- !all_of_Forall.
    destruct (all_of (mArgs m) _), (all_of (mResults m) _); cbn;
      intuition congruence.
Qed.

(** C3. Both passes go through the routines of the arguments, then of the
    results, then of the annotations.  If the routines before [f] succeed
    and [f] fails, the pass returns the error of [f] and the state is the
    one [f] left, so no routine after [f] has run; the pass returns [OK]
    exactly when every routine, run in this order, returns [OK]. *)
Theorem passes_fail_fast m w :
  (∀ pre f post w1 err w2,
      evaluate_calls m = pre ++ f :: post →
      all_succeed pre w w1 → f w1 = (err, w2) → err ≠ OK →
      evaluate m w = (err, w2))
  ∧ (∀ w', evaluate m w = (OK, w') ↔ all_succeed (evaluate_calls m) w w')
  ∧ (∀ pre f post w1 err w2,
      validate_calls m = pre ++ f :: post →
      all_succeed pre w w1 → f w1 = (err, w2) → err ≠ OK →
      validate m w = (err, w2))
  ∧ (∀ w', validate m w = (OK, w') ↔ all_succeed (validate_calls m) w w').
Proof.
  rewrite evaluate_first_error, validate_first_error. repeat split.
  - intros. by eapply first_error_stops.
  - by apply first_error_OK.
  - by apply first_error_OK.
  - intros. by eapply first_error_stops.
  - by apply first_error_OK.
  - by apply first_error_OK.
Qed.

Lemma fillImplementation_Ret m (serial : N) (native managed : MethodImpl) m' :
  fillImplementation serial native managed m = Ret m' →
  mIsHidlReserved m' = true ∧ getSerialId m' = serial
  ∧ mCppImpl m' = native ∧ mJavaImpl m' = managed.
Proof.
  unfold fillImplementation, CHECK. cbn [mJavaImpl mCppImpl].
  destruct (negb (found managed IMPL_STUB_IMPL)); [|done]. cbn [bind].
  destruct (negb (found native IMPL_STUB_IMPL) || negb (found native IMPL_STUB));
    [|done].
  cbn [bind]. by intros [= <-].
Qed.

(** C4, as the code has it.  [setSerialId] aborts exactly on a reserved
    method; on a method that is not reserved it succeeds at every call, a
    second one too, and stores the serial it is given.  The reservation
    stores its own serial and marks the method reserved, after which
    [setSerialId] aborts. *)
Theorem setSerialId_guard m (serial : N) :
  (mIsHidlReserved m = true → ∃ msg, setSerialId serial m = Abort msg)
  ∧ (mIsHidlReserved m = false →
     ∃ m', setSerialId serial m = Ret m'
           ∧ getSerialId m' = serial
           ∧ mIsHidlReserved m' = false
           ∧ ∀ serial', ∃ m'', setSerialId serial' m' = Ret m''
                               ∧ getSerialId m'' = serial')
  ∧ (∀ (native managed : MethodImpl) m',
       fillImplementation serial native managed m = Ret m' →
       getSerialId m' = serial
       ∧ mIsHidlReserved m' = true
       ∧ ∀ serial', ∃ msg, setSerialId serial' m' = Abort msg).
Proof.
  split; [|split].
  - intros Hres. unfold setSerialId, CHECK. rewrite Hres. cbn. eauto.
  - intros Hres. unfold setSerialId, CHECK. rewrite Hres. cbn.
    eexists. repeat split. intros serial'. cbn. eauto.
  - intros native managed m' (Hres & Hserial & _)%fillImplementation_Ret.
    split; [exact Hserial|]. split; [exact Hres|].
    intros serial'. unfold setSerialId, CHECK. rewrite Hres. cbn. eauto.
Qed.

(** C5. The reservation returns exactly when the managed map has no
    stub-default-impl role and the native map does not hold the stub and the
    stub-default-impl roles together; otherwise it aborts on the assertion
    that names the broken rule. *)
Theorem fillImplementation_checks m (serial : N) (native managed : MethodImpl) :
  (is_Some (managed !! IMPL_STUB_IMPL) →
   fillImplementation serial native managed m
   = Abort "FATAL: mJavaImpl should not use IMPL_STUB_IMPL; use IMPL_INTERFACE instead.")
  ∧ (managed !! IMPL_STUB_IMPL = None →
     is_Some (native !! IMPL_STUB) → is_Some (native !! IMPL_STUB_IMPL) →
     fillImplementation serial native managed m
     = Abort "FATAL: mCppImpl IMPL_STUB will override IMPL_STUB_IMPL.")
  ∧ ((∃ m', fillImplementation serial native managed m = Ret m')
     ↔ managed !! IMPL_STUB_IMPL = None
       ∧ ¬ (is_Some (native !! IMPL_STUB) ∧ is_Some (native !! IMPL_STUB_IMPL))).
Proof.
  unfold fillImplementation, CHECK. cbn [mJavaImpl mCppImpl].
  rewrite <- !found_is_Some, <- found_None.
  destruct (found managed IMPL_STUB_IMPL), (found native IMPL_STUB_IMPL),
    (found native IMPL_STUB); cbn; repeat split; intros; try done;
    try (eexists; reflexivity);
    repeat match goal with
           | H : ∃ _, _ |- _ => destruct H
           | H : _ ∧ _ |- _ => destruct H
           | H : ¬ _ |- _ => exfalso; apply H; by split
           end; try done; by intros [? ?].
Qed.

(** C6. On a reserved method the emission for a role that the backend's map
    does not hold returns without a failure and writes nothing; on a method
    that is not reserved the two emissions and the two override queries
    abort on the assertion at their entry. *)
Theorem absent_role_emits_nothing m role out :
  (mIsHidlReserved m = true → mCppImpl m !! role = None →
   cppImpl role out m = Ret out)
  ∧ (mIsHidlReserved m = true → mJavaImpl m !! role = None →
     javaImpl role out m = Ret out)
  ∧ (mIsHidlReserved m = false →
     cppImpl role out m = Abort "Check failed: mIsHidlReserved"
     ∧ javaImpl role out m = Abort "Check failed: mIsHidlReserved"
     ∧ overridesCppImpl role m = Abort "Check failed: mIsHidlReserved"
     ∧ overridesJavaImpl role m = Abort "Check failed: mIsHidlReserved").
Proof.
  unfold cppImpl, javaImpl, overridesCppImpl, overridesJavaImpl, CHECK.
  split; [|split].
  - by intros -> ->.
  - by intros -> ->.
  - by intros ->.
Qed.

(** C10. On a reserved method, a role registered with the null routine is
    reported as an override while its emission writes nothing; a role that
    is not registered is silent too but is reported as no override. *)
Theorem null_routine_overrides_silently m role out :
  mIsHidlReserved m = true →
  (mCppImpl m !! role = Some None →
   overridesCppImpl role m = Ret true ∧ cppImpl role out m = Ret out)
  ∧ (mJavaImpl m !! role = Some None →
     overridesJavaImpl role m = Ret true ∧ javaImpl role out m = Ret out)
  ∧ (mCppImpl m !! role = None →
     overridesCppImpl role m = Ret false ∧ cppImpl role out m = Ret out)
  ∧ (mJavaImpl m !! role = None →
     overridesJavaImpl role m = Ret false ∧ javaImpl role out m = Ret out).
Proof.
  unfold cppImpl, javaImpl, overridesCppImpl, overridesJavaImpl, CHECK, found.
  intros ->. split; [|split; [|split]]; intros ->; split; reflexivity.
Qed.

End MethodProperties.

(** ** Properties of the unique-name collection *)

Section TypedVarVectorProperties.
Context {World : Type}.
Implicit Types (v r : @NamedReference World) (c : @TypedVarVector World).

Lemma names_in_step_new : names_in_step (@newTypedVarVector World).
Proof. reflexivity. Qed.

Lemma names_in_step_present v c :
  names_in_step c → (ref_name v ∈ mNames c ↔ name_present v c).
Proof.
  unfold names_in_step, name_present. intros ->.
  rewrite elem_of_list_to_set, list_elem_of_fmap. split.
  - intros (r & Hname & Hin). by exists r.
  - intros (r & Hin & Hname). by exists r.
Qed.

Lemma add_names_in_step v c :
  names_in_step c → names_in_step (add v c).2.
Proof.
  unfold names_in_step, add, emplace. intros Hc.
  destruct (decide (ref_name v ∈ mNames c)); cbn; [exact Hc|].
  rewrite Hc, fmap_app, list_to_set_app_L. cbn.
  rewrite union_empty_r_L. apply (comm_L (∪)).
Qed.

(** C8. On a collection whose recorded names are those of the references
    it holds, [add] of a reference whose name is already held returns false
    and leaves the collection as it was; otherwise it returns true and the
    reference is appended, which makes the collection one longer. *)
Theorem add_unique_name v c :
  names_in_step c →
  (name_present v c → add v c = (false, c))
  ∧ (¬ name_present v c →
     ∃ c', add v c = (true, c')
           ∧ elems c' = elems c ++ [v]
           ∧ length (elems c') = S (length (elems c))
           ∧ names_in_step c').
Proof.
  intros Hc. pose proof (names_in_step_present v c Hc) as Hpresent.
  pose proof (add_names_in_step v c Hc) as Hkept. revert Hkept.
  unfold add, emplace. destruct (decide (ref_name v ∈ mNames c)) as [Hin|Hout].
  - intros _. split; [|by intros Hno; destruct Hno; apply Hpresent].
    intros _. by destruct c.
  - cbn. intros Hkept. split; [by intros ?%Hpresent|].
    intros _. eexists. split; [reflexivity|]. cbn.
    split; [reflexivity|]. split; [|exact Hkept].
    rewrite length_app. cbn. lia.
Qed.

End TypedVarVectorProperties.

(** ** Further properties: the passes *)

Section PassOrigin.
Context {World : Type}.
Implicit Types (w : World) (calls : list (@routine World)).

Lemma first_error_origin calls w err w' :
  first_error calls w = (err, w') → err ≠ OK →
  ∃ pre f post w1,
    calls = pre ++ f :: post ∧ all_succeed pre w w1 ∧ f w1 = (err, w').
Proof.
  revert w. induction calls as [|f calls IH]; intros w; cbn [first_error].
  - intros [= <- <-] Herr. by destruct Herr.
  - destruct (f w) as [e w1] eqn:Hf. destruct (e =? OK)%Z eqn:E; cbn [negb].
    + apply Z.eqb_eq in E as ->. intros Hrest Herr.
      destruct (IH w1 Hrest Herr) as (pre & g & post & w2 & -> & Hpre & Hg).
      exists (f :: pre), g, post, w2. split; [reflexivity|]. split; [|exact Hg].
      cbn [all_succeed]. by exists w1.
    + intros [= <- <-] _. exists [], f, calls, w. by repeat split.
Qed.

(** X1. An error returned by a pass is the status of one of the method's
    routines: the routines before it all returned [OK], and the state
    returned is the one this routine left. *)
Theorem pass_error_origin (m : @Method World) w err w' :
  err ≠ OK →
  (evaluate m w = (err, w') →
   ∃ pre f post w1,
     evaluate_calls m = pre ++ f :: post
     ∧ all_succeed pre w w1 ∧ f w1 = (err, w'))
  ∧ (validate m w = (err, w') →
     ∃ pre f post w1,
       validate_calls m = pre ++ f :: post
       ∧ all_succeed pre w w1 ∧ f w1 = (err, w')).
Proof.
  intros Herr. rewrite evaluate_first_error, validate_first_error.
  split; intros Hpass; by apply first_error_origin.
Qed.

End PassOrigin.

(** ** Further properties: the emitted text *)

Lemma length_append (a b : string) :
  String.length (a +:+ b) = String.length a + String.length b.
Proof.
  induction a as [|ch a IH]; [reflexivity|].
  change (S (String.length (a +:+ b)) = S (String.length a + String.length b)).
  by rewrite IH.
Qed.

Lemma append_same_l (a s : string) : a +:+ s = a ↔ s = "".
Proof.
  split; [|intros ->; apply append_empty_r].
  intros H. apply (f_equal String.length) in H. rewrite length_append in H.
  destruct s; [reflexivity|]. cbn in H. lia.
Qed.

Lemma concat_cons_length (sep x : string) (l : list string) :
  String.length x ≤ String.length (String.concat sep (x :: l)).
Proof.
  destruct l as [|y l]; [reflexivity|].
  rewrite concat_cons_cons, length_append. lia.
Qed.

Section EmittedText.
Context {World : Type}.
Implicit Types (m : @Method World) (l : list (@NamedReference World)).
Implicit Types (out : Formatter).

Lemma emitCppArgResultSignature_text out l (specifyNamespaces : bool) :
  emitCppArgResultSignature out l specifyNamespaces
  = out +:+ cpp_params specifyNamespaces l.
Proof.
  unfold emitCppArgResultSignature, cpp_params. apply join_text.
  intros x o. unfold cpp_param, put. by rewrite !append_assoc.
Qed.

Lemma emitJavaArgResultSignature_text out l :
  emitJavaArgResultSignature out l = out +:+ java_params l.
Proof.
  unfold emitJavaArgResultSignature, java_params. apply join_text.
  intros x o. unfold java_param, put. by rewrite !append_assoc.
Qed.

Lemma emitCppArgSignature_text out (specifyNamespaces : bool) m :
  emitCppArgSignature out specifyNamespaces m
  = out +:+ cpp_params specifyNamespaces (args m) +:+ callback_param m.
Proof.
  unfold emitCppArgSignature, callback_param.
  rewrite emitCppArgResultSignature_text.
  destruct (canElideCallback m) as [r|].
  - rewrite bool_decide_eq_true_2 by eauto. cbn [negb].
    by rewrite andb_false_r, append_empty_r.
  - rewrite bool_decide_eq_false_2 by (by intros [? ?]).
    destruct (results m); cbn [empty_ negb andb]; [by rewrite append_empty_r|].
    destruct (args m); cbn [empty_ negb]; unfold put; by rewrite !append_assoc.
Qed.

Lemma cpp_params_nonempty (specifyNamespaces : bool) l :
  l ≠ [] → cpp_params specifyNamespaces l ≠ "".
Proof.
  destruct l as [|x l]; [done|]. intros _ H.
  pose proof (concat_cons_length ", " (cpp_param specifyNamespaces x)
                (cpp_param specifyNamespaces <$> l)) as Hlen.
  unfold cpp_params in H. rewrite fmap_cons in H. rewrite H in Hlen.
  unfold cpp_param in Hlen. rewrite !length_append in Hlen. cbn in Hlen. lia.
Qed.

(** X2. The native argument signature writes nothing exactly when
    [hasEmptyCppArgSignature] holds: any explicit parameter and the callback
    parameter each write at least one character. *)
Theorem empty_signature_writes_nothing out (specifyNamespaces : bool) m :
  emitCppArgSignature out specifyNamespaces m = out
  ↔ hasEmptyCppArgSignature m = true.
Proof.
  rewrite emitCppArgSignature_text, append_same_l.
  unfold hasEmptyCppArgSignature, callback_param.
  destruct (args m) as [|a rest] eqn:Hargs; cbn [empty_ andb].
  - change (cpp_params specifyNamespaces []) with "".
    change ("" +:+ ?x) with x.
    destruct (canElideCallback m) as [r|].
    + rewrite bool_decide_eq_true_2 by eauto. by rewrite orb_true_r.
    + rewrite bool_decide_eq_false_2 by (by intros [? ?]).
      destruct (results m); cbn [empty_ orb]; [done|].
      split; [|done]. intros H. apply (f_equal String.length) in H.
      rewrite !length_append in H. cbn in H. lia.
  - split; [|done]. intros H. apply (f_equal String.length) in H.
    rewrite length_append in H.
    pose proof (cpp_params_nonempty specifyNamespaces (a :: rest)) as Hne.
    destruct (cpp_params specifyNamespaces (a :: rest)); [by destruct Hne|].
    cbn in H. lia.
Qed.

(** X3. The native signature in one piece: the return type, which is
    [Return<T>] for an elided result of type [T] and [Return<void>]
    otherwise, the class qualifier when a class name is given, the name, and
    between the brackets the explicit parameters followed by the callback
    parameter, which is there exactly when there is a result that is not
    elided. *)
Theorem generateCppSignature_text out (className : string)
    (specifyNamespaces : bool) m :
  generateCppSignature out className specifyNamespaces m
  = out +:+ (if specifyNamespaces then "::android::hardware::" else "")
        +:+ return_type specifyNamespaces m
        +:+ (if decide (className = "") then "" else className +:+ "::")
        +:+ name m +:+ "("
        +:+ cpp_params specifyNamespaces (args m)
        +:+ callback_param m
        +:+ ")".
Proof.
  unfold generateCppSignature, generateCppReturnType, return_type.
  rewrite emitCppArgSignature_text.
  destruct (decide (className = "")) as [->|Hclass].
  - cbn [String.eqb negb]. destruct (canElideCallback m);
      unfold put; by rewrite !append_assoc.
  - apply String.eqb_neq in Hclass. rewrite Hclass. cbn [negb].
    destruct (canElideCallback m); unfold put; by rewrite !append_assoc.
Qed.

(** X4. The result list of the native backend and both lists of the managed
    backend are written as the parameters joined by [", "], with no callback
    parameter; the native result list uses the argument rendering of each
    type.  An empty list writes nothing. *)
Theorem plain_signatures_text out (specifyNamespaces : bool) m :
  emitCppResultSignature out specifyNamespaces m
  = out +:+ cpp_params specifyNamespaces (results m)
  ∧ emitJavaArgSignature out m = out +:+ java_params (args m)
  ∧ emitJavaResultSignature out m = out +:+ java_params (results m)
  ∧ (results m = [] →
     emitCppResultSignature out specifyNamespaces m = out
     ∧ emitJavaResultSignature out m = out)
  ∧ (args m = [] → emitJavaArgSignature out m = out).
Proof.
  unfold emitCppResultSignature, emitJavaArgSignature, emitJavaResultSignature.
  rewrite emitCppArgResultSignature_text, !emitJavaArgResultSignature_text.
  do 3 (split; [reflexivity|]). split.
  - intros ->. split; apply append_empty_r.
  - intros ->. apply append_empty_r.
Qed.

Lemma dump_loop_text (text : @Annotation World → string) :
  ∀ (rest : list Annotation) (a : Annotation) (i : nat) out,
    Forall (fun b => ∀ o, Annotation_dump b o = o +:+ text b) rest →
    dump_loop (S i) rest (out +:+ text a)
    = out +:+ String.concat " " (text a :: (text <$> rest)).
Proof.
  induction rest as [|b rest IH]; intros a i out Hrest; [reflexivity|].
  apply Forall_cons in Hrest as [Hb Hrest].
  cbn [dump_loop Nat.ltb Nat.leb]. rewrite Hb. unfold put.
  rewrite (IH b (S i) _ Hrest).
  rewrite fmap_cons, (concat_cons_cons " " (text a)).
  by rewrite !append_assoc.
Qed.

(** X5. [dumpAnnotations] writes nothing for a method without annotation.
    Otherwise, when each annotation's [dump] appends its text, it writes one
    line: [// ], the texts separated by one space, and a line feed. *)
Theorem dumpAnnotations_text out m (text : @Annotation World → string) :
  (mAnnotations m = [] → dumpAnnotations out m = out)
  ∧ (mAnnotations m ≠ [] →
     Forall (fun a => ∀ o, Annotation_dump a o = o +:+ text a) (mAnnotations m) →
     dumpAnnotations out m
     = out +:+ "// " +:+ String.concat " " (text <$> mAnnotations m) +:+ newline).
Proof.
  unfold dumpAnnotations. split.
  - by intros ->.
  - destruct (mAnnotations m) as [|a rest]; [done|]. intros _ Hdump.
    apply Forall_cons in Hdump as [Ha Hrest].
    cbn [length Nat.eqb dump_loop Nat.ltb Nat.leb]. rewrite Ha.
    rewrite (dump_loop_text text rest a 0 _ Hrest). unfold put.
    by rewrite fmap_cons, !append_assoc.
Qed.

End EmittedText.

(** ** Further properties: copies and reservation *)

Section Lifecycle.
Context {World : Type}.
Implicit Types (m : @Method World) (w : World) (out : Formatter).
Implicit Types (role : MethodImplType) (native managed : MethodImpl).

Lemma fillImplementation_Ret_eq m (serial : N) native managed m' :
  fillImplementation serial native managed m = Ret m' →
  m' = {| mName := mName m; mArgs := mArgs m; mResults := mResults m;
          mOneway := mOneway m; mAnnotations := mAnnotations m;
          mIsHidlReserved := true; mSerial := serial;
          mCppImpl := native; mJavaImpl := managed |}
  ∧ found managed IMPL_STUB_IMPL = false
  ∧ (found native IMPL_STUB_IMPL = false ∨ found native IMPL_STUB = false).
Proof.
  unfold fillImplementation, CHECK. cbn [mJavaImpl mCppImpl].
  destruct (found managed IMPL_STUB_IMPL); [done|]. cbn [negb bind].
  destruct (found native IMPL_STUB_IMPL), (found native IMPL_STUB);
    cbn [negb orb bind]; try done; intros [= <-]; eauto.
Qed.

(** X6. A copy made by [copySignature] has the name, arguments, results and
    annotations of the original, so it elides the same callback, gets the
    same signatures and runs the same passes; but it is not reserved,
    whatever the original was: the role lookups and override queries abort
    on it, [setSerialId] is accepted, and its compatibility with the managed
    backend is decided by its types alone, also when it is named [debug]. *)
Theorem copySignature_fresh m :
  canElideCallback (copySignature m) = canElideCallback m
  ∧ (∀ out className (specifyNamespaces : bool),
       generateCppSignature out className specifyNamespaces (copySignature m)
       = generateCppSignature out className specifyNamespaces m)
  ∧ (∀ out, emitJavaArgSignature out (copySignature m) = emitJavaArgSignature out m
            ∧ emitJavaResultSignature out (copySignature m)
              = emitJavaResultSignature out m
            ∧ dumpAnnotations out (copySignature m) = dumpAnnotations out m)
  ∧ (∀ w, evaluate (copySignature m) w = evaluate m w
          ∧ validate (copySignature m) w = validate m w)
  ∧ isHidlReserved (copySignature m) = false
  ∧ (∀ role out,
       cppImpl role out (copySignature m) = Abort "Check failed: mIsHidlReserved"
       ∧ javaImpl role out (copySignature m) = Abort "Check failed: mIsHidlReserved"
       ∧ overridesCppImpl role (copySignature m)
         = Abort "Check failed: mIsHidlReserved"
       ∧ overridesJavaImpl role (copySignature m)
         = Abort "Check failed: mIsHidlReserved")
  ∧ (∀ serial : N, ∃ m', setSerialId serial (copySignature m) = Ret m'
                         ∧ getSerialId m' = serial)
  ∧ isJavaCompatible (copySignature m)
    = all_of (mArgs m) (fun arg => Type_isJavaCompatible (ref_type arg))
      && all_of (mResults m) (fun arg => Type_isJavaCompatible (ref_type arg)).
Proof.
  do 5 (split; [by repeat split|]). split; [by repeat split|].
  split; [intros serial; eexists; by split|].
  unfold isJavaCompatible, all_of. cbn.
  by destruct (forallb _ (mArgs m)), (forallb _ (mResults m)).
Qed.

(** X7. What the reservation registers is what the dispatch finds: on the
    method returned by [fillImplementation], the emission for a role runs the
    routine the backend's own map holds for it and writes nothing when the
    map holds none or the null routine, and the override query tells whether
    the role is a key of that map. *)
Theorem reservation_dispatch m (serial : N) native managed m' role out :
  fillImplementation serial native managed m = Ret m' →
  cppImpl role out m'
  = Ret (match native !! role with Some (Some f) => f out | _ => out end)
  ∧ javaImpl role out m'
    = Ret (match managed !! role with Some (Some f) => f out | _ => out end)
  ∧ overridesCppImpl role m' = Ret (bool_decide (is_Some (native !! role)))
  ∧ overridesJavaImpl role m' = Ret (bool_decide (is_Some (managed !! role))).
Proof.
  intros (-> & _)%fillImplementation_Ret_eq.
  unfold cppImpl, javaImpl, overridesCppImpl, overridesJavaImpl, found, CHECK.
  cbn. repeat split.
  - by destruct (native !! role) as [[f|]|].
  - by destruct (managed !! role) as [[f|]|].
  - by destruct (native !! role).
  - by destruct (managed !! role).
Qed.

(** X8. On a method returned by [fillImplementation] the managed backend
    never overrides the stub-default-impl role, and the native backend does
    not override both the stub and the stub-default-impl roles. *)
Theorem reservation_roles_exclusive m (serial : N) native managed m' :
  fillImplementation serial native managed m = Ret m' →
  overridesJavaImpl IMPL_STUB_IMPL m' = Ret false
  ∧ (overridesCppImpl IMPL_STUB m' = Ret false
     ∨ overridesCppImpl IMPL_STUB_IMPL m' = Ret false).
Proof.
  intros (-> & Hmanaged & Hnative)%fillImplementation_Ret_eq.
  unfold overridesCppImpl, overridesJavaImpl, CHECK. cbn.
  rewrite Hmanaged. split; [reflexivity|].
  destruct Hnative as [-> | ->]; eauto.
Qed.

(** X9. Reserving a method or setting its serial leaves its signature as it
    was: the callback elision, the native signature and both passes are
    those of the method before. *)
Theorem reservation_keeps_signature m m' :
  ((∃ (serial : N) native managed,
      fillImplementation serial native managed m = Ret m')
   ∨ (∃ serial : N, setSerialId serial m = Ret m')) →
  canElideCallback m' = canElideCallback m
  ∧ (∀ out className (specifyNamespaces : bool),
       generateCppSignature out className specifyNamespaces m'
       = generateCppSignature out className specifyNamespaces m)
  ∧ (∀ w, evaluate m' w = evaluate m w ∧ validate m' w = validate m w).
Proof.
  intros [(serial & native & managed & (-> & _)%fillImplementation_Ret_eq)
         | (serial & Hset)]; [by repeat split|].
  unfold setSerialId, CHECK in Hset.
  destruct (mIsHidlReserved m); [done|]. cbn in Hset.
  injection Hset as <-. by repeat split.
Qed.

(** X10. [fillImplementation] does not look at an earlier reservation: on a
    method that was reserved before it does what it does on the method
    before that reservation, so the later serial and maps replace the
    earlier ones. *)
Theorem reservation_replaces m (serial1 serial2 : N)
    (native1 managed1 native2 managed2 : MethodImpl) m1 :
  fillImplementation serial1 native1 managed1 m = Ret m1 →
  fillImplementation serial2 native2 managed2 m1
  = fillImplementation serial2 native2 managed2 m.
Proof. by intros (-> & _)%fillImplementation_Ret_eq. Qed.

(** X11. A method as constructed is not hidden from the managed backend,
    whatever its name; once reserved it is hidden exactly when its name is
    [debug], and is then compatible with the managed backend. *)
Theorem hidden_once_reserved m (serial : N) native managed m' :
  fillImplementation serial native managed m = Ret m' →
  (∀ n a r o an, isHiddenFromJava (@newMethod World n a r o an) = false)
  ∧ (isHiddenFromJava m' = true ↔ name m = "debug")
  ∧ (name m = "debug" → isJavaCompatible m' = true).
Proof.
  intros (-> & _)%fillImplementation_Ret_eq.
  split; [reflexivity|].
  unfold isJavaCompatible, isHiddenFromJava, isHidlReserved, name.
  cbn [mIsHidlReserved mName andb]. split.
  - apply String.eqb_eq.
  - intros ->. reflexivity.
Qed.

End Lifecycle.

(** ** Further properties: the unique-name collection *)

Section Collections.
Context {World : Type}.
Implicit Types (v r : @NamedReference World) (c : @TypedVarVector World).
Implicit Types (vs : list (@NamedReference World)).

Lemma add_elems v c :
  elems (add v c).2 = elems c ∨ elems (add v c).2 = elems c ++ [v].
Proof.
  unfold add, emplace. destruct (decide (ref_name v ∈ mNames c)); cbn; eauto.
Qed.

Lemma add_NoDup v c :
  names_in_step c → NoDup (ref_name <$> elems c) →
  NoDup (ref_name <$> elems (add v c).2).
Proof.
  intros Hc Hnd. unfold add, emplace.
  destruct (decide (ref_name v ∈ mNames c)) as [Hin|Hout]; cbn; [exact Hnd|].
  rewrite fmap_app. cbn [fmap list_fmap]. apply NoDup_app.
  split; [exact Hnd|]. split.
  - intros x Hx [-> | Hnil]%elem_of_cons.
    + apply Hout. rewrite Hc. by apply elem_of_list_to_set.
    + by apply elem_of_nil in Hnil.
  - apply NoDup_singleton.
Qed.

Lemma add_name_held v c : ref_name v ∈ mNames (add v c).2.
Proof.
  unfold add, emplace. destruct (decide (ref_name v ∈ mNames c)); cbn; [done|].
  apply elem_of_union_l, elem_of_singleton. reflexivity.
Qed.

Lemma add_mNames_mono v c (s : string) :
  s ∈ mNames c → s ∈ mNames (add v c).2.
Proof.
  unfold add, emplace. destruct (decide (ref_name v ∈ mNames c)); cbn; [done|].
  apply elem_of_union_r.
Qed.

Lemma add_all_cons v vs c : add_all (v :: vs) c = add_all vs (add v c).2.
Proof. reflexivity. Qed.

Lemma add_all_keeps vs :
  ∀ c, names_in_step c → NoDup (ref_name <$> elems c) →
       names_in_step (add_all vs c) ∧ NoDup (ref_name <$> elems (add_all vs c)).
Proof.
  induction vs as [|v vs IH]; intros c Hc Hnd; [done|].
  rewrite add_all_cons. apply IH; [by apply add_names_in_step | by apply add_NoDup].
Qed.

Lemma add_all_mNames_mono vs :
  ∀ c (s : string), s ∈ mNames c → s ∈ mNames (add_all vs c).
Proof.
  induction vs as [|v vs IH]; intros c s Hs; [done|].
  rewrite add_all_cons. apply IH. by apply add_mNames_mono.
Qed.

Lemma add_all_held vs :
  ∀ c v, v ∈ vs → ref_name v ∈ mNames (add_all vs c).
Proof.
  induction vs as [|v0 vs IH]; intros c v Hv; [by apply elem_of_nil in Hv|].
  rewrite add_all_cons. apply elem_of_cons in Hv as [-> | Hv].
  - apply add_all_mNames_mono, add_name_held.
  - by apply IH.
Qed.

Lemma add_all_from vs :
  ∀ c r, r ∈ elems (add_all vs c) → r ∈ elems c ∨ r ∈ vs.
Proof.
  induction vs as [|v vs IH]; intros c r Hr; [by left|].
  rewrite add_all_cons in Hr. destruct (IH _ _ Hr) as [Hc | Hvs].
  - destruct (add_elems v c) as [Heq | Heq]; rewrite Heq in Hc.
    + by left.
    + apply elem_of_app in Hc as [Hc | Hv]; [by left|].
      apply list_elem_of_singleton in Hv as ->. right. apply list_elem_of_here.
  - right. by apply list_elem_of_further.
Qed.

(** X12. A collection filled through [add] alone, starting empty, holds no
    two references of one name; it holds a reference for every name that
    was offered, and only references that were offered. *)
Theorem add_all_distinct_names vs :
  NoDup (ref_name <$> elems (add_all vs newTypedVarVector))
  ∧ (∀ v, v ∈ vs → name_present v (add_all vs newTypedVarVector))
  ∧ (∀ r, r ∈ elems (add_all vs newTypedVarVector) → r ∈ vs).
Proof.
  destruct (add_all_keeps vs newTypedVarVector names_in_step_new)
    as [Hstep Hnd]; [apply NoDup_nil_2|].
  split; [exact Hnd|]. split.
  - intros v Hv. apply (names_in_step_present v _ Hstep).
    by apply add_all_held.
  - intros r Hr. destruct (add_all_from vs _ r Hr) as [Hnil | Hvs]; [|done].
    by apply elem_of_nil in Hnil.
Qed.

(** X13. A reference offered twice in a row is refused the second time,
    and the second call changes nothing, whatever the collection was. *)
Theorem add_twice_refused v c :
  add v (add v c).2 = (false, (add v c).2).
Proof.
  pose proof (add_name_held v c) as Hheld. revert Hheld.
  generalize (add v c).2. intros c' Hheld. unfold add, emplace.
  destruct (decide (ref_name v ∈ mNames c')); [by destruct c' | done].
Qed.

End Collections.

(** ** The properties at the methods above *)

Example foo_signature :
  generateCppSignature "" "" false foo = "Return<int32_t> foo()"
  ∧ hasEmptyCppArgSignature foo = true.
Proof. split; reflexivity. Qed.

Example bar_signature :
  generateCppSignature "" "" false bar
  = "Return<void> bar(int32_t a, int32_t b, bar_cb _hidl_cb)".
Proof. reflexivity. Qed.

Example debug_reserved :
  fillImplementation 256 debug_native ∅ debug_signature = Ret debug.
Proof. reflexivity. Qed.

Lemma canElideCallback_iff_witness :
  canElideCallback foo = Some (int32 "x") ∧ canElideCallback bar = None.
Proof.
  split.
  - apply (proj1 (canElideCallback_iff foo)). split; reflexivity.
  - apply (proj1 (proj2 (proj2 (proj2 (canElideCallback_iff bar))))).
    cbn. lia.
Defined.

Lemma hasEmptyCppArgSignature_iff_witness :
  hasEmptyCppArgSignature foo = true.
Proof.
  apply (proj2 (hasEmptyCppArgSignature_iff foo)).
  split; [reflexivity|]. right. eexists. reflexivity.
Defined.

Lemma emitCppArgSignature_callback_witness :
  emitCppArgSignature "bar(" false bar = "bar(int32_t a, int32_t b, bar_cb _hidl_cb"
  ∧ emitCppArgSignature "foo(" false foo = "foo(".
Proof.
  split.
  - apply (proj1 (emitCppArgSignature_callback "bar(" false bar));
      [discriminate | reflexivity].
  - apply (proj2 (emitCppArgSignature_callback "foo(" false foo)).
    right. eexists. reflexivity.
Defined.

Lemma passes_fail_fast_witness :
  evaluate five [] = ((-22)%Z, ["a"; "b"; "c"])
  ∧ validate five [] = ((-22)%Z, ["a"; "b"; "c"]).
Proof.
  destruct (passes_fail_fast five []) as (Hevaluate & _ & Hvalidate & _).
  split.
  - apply (Hevaluate (take 2 (evaluate_calls five)) (logged "c" (-22)%Z)
             (drop 3 (evaluate_calls five)) ["a"; "b"]).
    + reflexivity.
    + cbn. eexists. split; [reflexivity|]. eexists. split; reflexivity.
    + reflexivity.
    + discriminate.
  - apply (Hvalidate (take 2 (validate_calls five)) (logged "c" (-22)%Z)
             (drop 3 (validate_calls five)) ["a"; "b"]).
    + reflexivity.
    + cbn. eexists. split; [reflexivity|]. eexists. split; reflexivity.
    + reflexivity.
    + discriminate.
Defined.

(** C4, as stated, fails on [foo]: the serial is set twice and the second
    call is accepted. *)
Lemma setSerialId_twice_accepted :
  ∃ foo1 foo2 : @Method Log,
    setSerialId 1 foo = Ret foo1 ∧ getSerialId foo1 = 1%N
    ∧ setSerialId 2 foo1 = Ret foo2 ∧ getSerialId foo2 = 2%N.
Proof. do 2 eexists. repeat split. Qed.

Lemma setSerialId_guard_witness :
  (∃ msg, setSerialId 7 debug = Abort msg)
  ∧ (∃ foo1, setSerialId 7 foo = Ret foo1 ∧ getSerialId foo1 = 7%N)
  ∧ (∃ msg, setSerialId 7 debug = Abort msg).
Proof.
  destruct (setSerialId_guard debug 7) as (Hreserved & _ & _).
  destruct (setSerialId_guard foo 7) as (_ & Hfree & _).
  destruct (setSerialId_guard debug_signature 256) as (_ & _ & Hfill).
  split; [by apply Hreserved|]. split.
  - destruct (Hfree eq_refl) as (foo1 & H1 & H2 & _). by exists foo1.
  - assert (Hdebug : fillImplementation 256 debug_native ∅ debug_signature
                     = Ret debug) by reflexivity.
    destruct (Hfill debug_native ∅ debug Hdebug) as (_ & _ & Hset).
    apply Hset.
Defined.

Lemma fillImplementation_checks_witness :
  fillImplementation 1 ∅ {[ IMPL_STUB_IMPL := None ]} foo
  = Abort "FATAL: mJavaImpl should not use IMPL_STUB_IMPL; use IMPL_INTERFACE instead."
  ∧ fillImplementation 1 {[ IMPL_STUB := None; IMPL_STUB_IMPL := None ]} ∅ foo
    = Abort "FATAL: mCppImpl IMPL_STUB will override IMPL_STUB_IMPL."
  ∧ ∃ m', fillImplementation 256 debug_native ∅ debug_signature = Ret m'.
Proof.
  split; [|split].
  - apply (proj1 (fillImplementation_checks foo 1 ∅ {[ IMPL_STUB_IMPL := None ]})).
    eexists. reflexivity.
  - apply (proj1 (proj2 (fillImplementation_checks foo 1
                           {[ IMPL_STUB := None; IMPL_STUB_IMPL := None ]} ∅))).
    + reflexivity.
    + eexists. reflexivity.
    + eexists. reflexivity.
  - apply (proj2 (proj2 (fillImplementation_checks debug_signature 256
                           debug_native ∅))).
    split; [reflexivity|]. intros [_ [x Hx]]. discriminate Hx.
Defined.

Lemma absent_role_emits_nothing_witness :
  cppImpl IMPL_PROXY "text" debug = Ret "text"
  ∧ javaImpl IMPL_PROXY "text" debug = Ret "text"
  ∧ cppImpl IMPL_PROXY "text" foo = Abort "Check failed: mIsHidlReserved"
  ∧ overridesCppImpl IMPL_PROXY foo = Abort "Check failed: mIsHidlReserved".
Proof.
  destruct (absent_role_emits_nothing debug IMPL_PROXY "text")
    as (Hnative & Hmanaged & _).
  destruct (absent_role_emits_nothing foo IMPL_PROXY "text")
    as (_ & _ & Hfree).
  destruct (Hfree eq_refl) as (H1 & _ & H3 & _).
  split; [by apply Hnative|]. split; [by apply Hmanaged|]. by split.
Defined.

Lemma null_routine_overrides_silently_witness :
  overridesCppImpl IMPL_STUB debug = Ret true
  ∧ cppImpl IMPL_STUB "text" debug = Ret "text"
  ∧ overridesCppImpl IMPL_PROXY debug = Ret false.
Proof.
  destruct (null_routine_overrides_silently debug IMPL_STUB "text" eq_refl)
    as (Hnull & _).
  destruct (null_routine_overrides_silently debug IMPL_PROXY "text" eq_refl)
    as (_ & _ & Habsent & _).
  destruct (Hnull eq_refl) as [H1 H2]. destruct (Habsent eq_refl) as [H3 _].
  by repeat split.
Defined.

Lemma isJavaCompatible_iff_witness :
  isJavaCompatible debug = true ∧ isJavaCompatible bar = true.
Proof.
  split.
  - by apply (proj1 (isJavaCompatible_iff debug)).
  - apply (proj2 (isJavaCompatible_iff bar)).
    + intros [Hreserved _]. discriminate Hreserved.
    + split; repeat constructor.
Defined.

Lemma add_unique_name_witness :
  add (int32 "a") vars_a_b = (false, vars_a_b)
  ∧ ∃ c', add (int32 "c") vars_a_b = (true, c')
          ∧ elems c' = [int32 "a"; int32 "b"; int32 "c"].
Proof.
  assert (Hstep : names_in_step vars_a_b) by reflexivity.
  destruct (add_unique_name (int32 "a") vars_a_b Hstep) as [Hheld _].
  destruct (add_unique_name (int32 "c") vars_a_b Hstep) as [_ Hfresh].
  split.
  - apply Hheld. exists (int32 "a"). split; [|reflexivity]. cbn. apply list_elem_of_here.
  - destruct Hfresh as (c' & Hadd & Helems & _).
    + intros (r & Hin & Hname). cbn in Hin.
      apply elem_of_cons in Hin as [-> | Hin]; [discriminate Hname|].
      apply elem_of_cons in Hin as [-> | Hin]; [discriminate Hname|].
      by apply elem_of_nil in Hin.
    + exists c'. by split.
Defined.

Lemma pass_error_origin_witness :
  (∃ pre f post w1,
     evaluate_calls five = pre ++ f :: post
     ∧ all_succeed pre [] w1 ∧ f w1 = ((-22)%Z, ["a"; "b"; "c"]))
  ∧ (∃ pre f post w1,
       validate_calls five = pre ++ f :: post
       ∧ all_succeed pre [] w1 ∧ f w1 = ((-22)%Z, ["a"; "b"; "c"])).
Proof.
  assert (Herr : (-22)%Z ≠ OK) by discriminate.
  destruct (pass_error_origin five [] (-22)%Z ["a"; "b"; "c"] Herr)
    as [Hevaluate Hvalidate].
  split; [by apply Hevaluate | by apply Hvalidate].
Defined.

Lemma plain_signatures_text_witness :
  emitCppResultSignature "" false bar = "int32_t x, int32_t y"
  ∧ emitJavaArgSignature "" bar = "int a, int b"
  ∧ emitJavaArgSignature "foo(" foo = "foo(".
Proof.
  destruct (plain_signatures_text "" false bar) as (Hcpp & Hjava & _).
  destruct (plain_signatures_text "foo(" false foo) as (_ & _ & _ & _ & Hnone).
  split; [exact Hcpp|]. split; [exact Hjava|]. by apply Hnone.
Defined.

Lemma dumpAnnotations_text_witness :
  dumpAnnotations "" foo = ""
  ∧ dumpAnnotations "" open_device = "// @entry @callflow" +:+ newline.
Proof.
  destruct (dumpAnnotations_text "" foo (fun a => Annotation_dump a ""))
    as [Hnone _].
  destruct (dumpAnnotations_text "" open_device (fun a => Annotation_dump a ""))
    as [_ Hsome].
  split; [by apply Hnone|]. apply Hsome; [discriminate|].
  repeat constructor.
Defined.

Lemma reservation_dispatch_witness :
  cppImpl IMPL_INTERFACE "" debug = Ret "return ::android::hardware::Void();"
  ∧ javaImpl IMPL_INTERFACE "" debug = Ret ""
  ∧ overridesCppImpl IMPL_STUB debug = Ret true
  ∧ overridesJavaImpl IMPL_STUB debug = Ret false.
Proof.
  assert (Hdebug : fillImplementation 256 debug_native ∅ debug_signature
                   = Ret debug) by reflexivity.
  destruct (reservation_dispatch debug_signature 256 debug_native ∅ debug
              IMPL_INTERFACE "" Hdebug) as (Hcpp & Hjava & _).
  destruct (reservation_dispatch debug_signature 256 debug_native ∅ debug
              IMPL_STUB "" Hdebug) as (_ & _ & Hnative & Hmanaged).
  split; [exact Hcpp|]. split; [exact Hjava|].
  split; [exact Hnative | exact Hmanaged].
Defined.

Lemma reservation_roles_exclusive_witness :
  overridesJavaImpl IMPL_STUB_IMPL debug = Ret false
  ∧ (overridesCppImpl IMPL_STUB debug = Ret false
     ∨ overridesCppImpl IMPL_STUB_IMPL debug = Ret false).
Proof.
  assert (Hdebug : fillImplementation 256 debug_native ∅ debug_signature
                   = Ret debug) by reflexivity.
  exact (reservation_roles_exclusive debug_signature 256 debug_native ∅ debug
           Hdebug).
Defined.

Lemma reservation_keeps_signature_witness :
  generateCppSignature "" "IBase" true debug
  = generateCppSignature "" "IBase" true debug_signature
  ∧ evaluate debug [] = evaluate debug_signature [].
Proof.
  assert (Hdebug : fillImplementation 256 debug_native ∅ debug_signature
                   = Ret debug) by reflexivity.
  destruct (reservation_keeps_signature debug_signature debug)
    as (_ & Hsignature & Hpasses).
  - left. exists 256%N, debug_native, ∅. exact Hdebug.
  - split; [apply Hsignature | apply Hpasses].
Defined.

Lemma reservation_replaces_witness :
  ∃ m', fillImplementation 7 ∅ ∅ debug = Ret m'
        ∧ getSerialId m' = 7%N
        ∧ overridesCppImpl IMPL_INTERFACE m' = Ret false.
Proof.
  assert (Hdebug : fillImplementation 256 debug_native ∅ debug_signature
                   = Ret debug) by reflexivity.
  rewrite (reservation_replaces debug_signature 256 7 debug_native ∅ ∅ ∅ debug
             Hdebug).
  eexists. by repeat split.
Defined.

Lemma hidden_once_reserved_witness :
  isHiddenFromJava debug_signature = false
  ∧ isHiddenFromJava debug = true
  ∧ isJavaCompatible debug = true.
Proof.
  assert (Hdebug : fillImplementation 256 debug_native ∅ debug_signature
                   = Ret debug) by reflexivity.
  destruct (hidden_once_reserved debug_signature 256 debug_native ∅ debug Hdebug)
    as (Hnew & Hhidden & Hcompatible).
  split; [apply Hnew|]. split; [by apply Hhidden | by apply Hcompatible].
Defined.

Lemma add_all_distinct_names_witness :
  NoDup (ref_name <$> elems (add_all [int32 "a"; int32 "b"; bad_int32 "a"]
                               newTypedVarVector))
  ∧ name_present (bad_int32 "a")
      (add_all [int32 "a"; int32 "b"; bad_int32 "a"] newTypedVarVector).
Proof.
  destruct (add_all_distinct_names [int32 "a"; int32 "b"; bad_int32 "a"])
    as (Hdistinct & Hheld & _).
  split; [exact Hdistinct|]. apply Hheld.
  do 2 apply list_elem_of_further. apply list_elem_of_here.
Defined.
